(** * assimp [include/assimp/metadata.h]: the metadata store

    A shallow embedding of [aiType], [aiMetaDataEntry], the [GetAiType]
    overload set, the [transform] dispatcher and the [aiMetadata] container
    (constructor, destructor, [Set], both [Get] overloads), followed by the
    properties of the container's access contract. *)

From Stdlib Require Import ZArith String.
From stdpp Require Import base option list gmap.

Set Default Proof Using "Type".

(** ** Outcomes and the state-and-error monad *)

(** A run of C++ code either returns, stops in a failed [assert], or has
    no defined behaviour (null or out-of-range array access, reading an
    object through a pointer of another type, freeing a dead pointer). *)
Inductive result (A : Type) : Type :=
  | Ok (a : A)
  | AssertFail
  | Undefined.
Arguments Ok {A} a.
Arguments AssertFail {A}.
Arguments Undefined {A}.

Module StErr.
Definition M (S A : Type) : Type := S → result (A * S).

Definition ret {S A} (a : A) : M S A := λ σ, Ok (a, σ).
Definition bind {S A B} (m : M S A) (k : A → M S B) : M S B :=
  λ σ, match m σ with
       | Ok (a, σ') => k a σ'
       | AssertFail => AssertFail
       | Undefined => Undefined
       end.
Definition get {S} : M S S := λ σ, Ok (σ, σ).
Definition modify {S} (f : S → S) : M S unit := λ σ, Ok (tt, f σ).
Definition undefined {S A} : M S A := λ _, Undefined.
(** [assert(b)], with assertions compiled in. *)
Definition assert {S} (b : bool) : M S unit :=
  λ σ, if b then Ok (tt, σ) else AssertFail.
(** Unwrap a partial read; [None] has no defined behaviour. *)
Definition defined {S A} (o : option A) : M S A :=
  match o with Some a => ret a | None => undefined end.
End StErr.

Global Instance sterr_ret {S} : MRet (StErr.M S) := λ A, StErr.ret.
Global Instance sterr_bind {S} : MBind (StErr.M S) := λ A B k m, StErr.bind m k.

(** ** The type registry *)

(** [enum aiType]. [FORCE_32BIT] is an enumerator of the enum although no
    value is ever stored with it. *)
Inductive aiType : Set :=
  | AI_BOOL
  | AI_INT
  | AI_UINT64
  | AI_FLOAT
  | AI_AISTRING
  | AI_AIVECTOR3D
  | FORCE_32BIT.

Global Instance aiType_eq_dec : EqDecision aiType.
Proof. solve_decision. Defined.

(** Numeric value of an enumerator ([INT_MAX] is 2^31 - 1). *)
Definition aiType_code (t : aiType) : Z :=
  match t with
  | AI_BOOL => 0
  | AI_INT => 1
  | AI_UINT64 => 2
  | AI_FLOAT => 3
  | AI_AISTRING => 4
  | AI_AIVECTOR3D => 5
  | FORCE_32BIT => 2147483647
  end%Z.

(** The six value kinds proper. *)
Definition value_kind (t : aiType) : bool :=
  match t with FORCE_32BIT => false | _ => true end.

(** The types [T] at which the templates [Set] and [Get] can be
    instantiated, that is, the argument types for which the call
    [GetAiType(value)] is well-formed. The first six are the parameter
    types of the overloads. The overloads take their argument by value,
    so overload resolution also accepts the types below them: those that
    reach [int] by integral promotion ([T_enum] stands for an unscoped
    enumeration whose values fit [int], one per [id]), and every pointer
    type (one per [pointee]), for which [bool] is the only viable
    overload. Types that would need a conversion to reach several
    overloads ([long], [unsigned], [double]) make the call ambiguous and
    do not occur; conversions through constructors of [aiString] and
    [aiVector3D], which are declared in other headers, are not covered. *)
Inductive ctype : Set :=
  | T_bool
  | T_int
  | T_uint64_t
  | T_float
  | T_aiString
  | T_aiVector3D
  | T_short
  | T_unsigned_short
  | T_char
  | T_signed_char
  | T_unsigned_char
  | T_enum (id : nat)
  | T_pointer (pointee : nat).

Global Instance ctype_eq_dec : EqDecision ctype.
Proof. solve_decision. Defined.


(** [t] is the parameter type of an overload (an exact match). *)
Definition exact_match (t : ctype) : bool :=
  match t with
  | T_bool | T_int | T_uint64_t | T_float | T_aiString | T_aiVector3D => true
  | _ => false
  end.

(** [float]: an IEEE-754 binary32 datum, kept as its bit pattern; the
    container only copies it. *)
Definition float : Type := Z.

(** Modelled from the spec: [aiVector3D] is declared in another header;
    the spec describes it as three Float32 components. *)
Record aiVector3D : Type := mk_aiVector3D { vx : float; vy : float; vz : float }.

(** [std::string]. *)
Definition std_string : Type := string.

(** Heap addresses; a pointer is an address or [NULL]. *)
Definition loc : Type := positive.
Definition ptr : Type := option loc.
Definition NULL : ptr := None.

(** A [void*] re-typed by [static_cast<T*>]. *)
Record typed_ptr : Type := mk_typed_ptr { pointee : ctype; address : ptr }.
Definition static_cast (t : ctype) (data : ptr) : typed_ptr :=
  {| pointee := t; address := data |}.

(** A pointer to an array obtained from [new T[n]]: null, or the live
    array with its elements, or dangling once [delete []] has released
    the array (the pointer value itself is not changed by the release,
    so it still compares unequal to null). *)
Inductive array_ptr (A : Type) : Type :=
  | Null_array
  | Array (elements : list A)
  | Dangling.
Arguments Null_array {A}.
Arguments Array {A} elements.
Arguments Dangling {A}.

(** The elements a pointer gives access to. *)
Definition contents {A} (p : array_ptr A) : option (list A) :=
  match p with Array l => Some l | _ => None end.

(** [if (p)] *)
Definition non_null {A} (p : array_ptr A) : bool :=
  match p with Null_array => false | _ => true end.

(** [struct aiMetaDataEntry]. *)
Record aiMetaDataEntry : Type := mk_entry { type : aiType; data : ptr }.

(** Ghost trace of the calls that matter for ownership. *)
Inductive array_field : Set := Keys_array | Values_array.
Inductive event : Type :=
  | EvNew (p : loc)
  | EvOperatorDelete (p : ptr)
  | EvDeleteArray (a : array_field)
  | EvTransform (t : aiType) (d : ptr) (callee : string).

Global Instance array_field_eq_dec : EqDecision array_field.
Proof. solve_decision. Defined.
Global Instance event_eq_dec : EqDecision event.
Proof. solve_decision. Defined.

Section Metadata.

(** [aiString] is declared in another header; what this file uses of it
    is taken as given: the type, [operator==], and the value an
    [aiString] has after [operator=(const std::string&)]. *)
Variable aiString : Type.
Variable aiString_eq : aiString → aiString → bool.
Variable aiString_assign : aiString → std_string → aiString.

(** Values of a concrete type. Integers are kept as their mathematical
    value; no arithmetic is done on them. *)
Definition cval (t : ctype) : Type :=
  match t with
  | T_bool => bool
  | T_int => Z
  | T_uint64_t => Z
  | T_float => float
  | T_aiString => aiString
  | T_aiVector3D => aiVector3D
  | T_short | T_unsigned_short | T_char | T_signed_char | T_unsigned_char => Z
  | T_enum _ => Z
  | T_pointer _ => ptr
  end.

(** A heap object together with its dynamic type. *)
Inductive object : Type :=
  | O_bool (b : bool)
  | O_int (z : Z)
  | O_uint64_t (z : Z)
  | O_float (f : float)
  | O_aiString (s : aiString)
  | O_aiVector3D (v : aiVector3D)
  | O_short (z : Z)
  | O_unsigned_short (z : Z)
  | O_char (z : Z)
  | O_signed_char (z : Z)
  | O_unsigned_char (z : Z)
  | O_enum (id : nat) (z : Z)
  | O_pointer (pointee : nat) (p : ptr).

Definition dynamic_type (o : object) : ctype :=
  match o with
  | O_bool _ => T_bool
  | O_int _ => T_int
  | O_uint64_t _ => T_uint64_t
  | O_float _ => T_float
  | O_aiString _ => T_aiString
  | O_aiVector3D _ => T_aiVector3D
  | O_short _ => T_short
  | O_unsigned_short _ => T_unsigned_short
  | O_char _ => T_char
  | O_signed_char _ => T_signed_char
  | O_unsigned_char _ => T_unsigned_char
  | O_enum id _ => T_enum id
  | O_pointer pointee _ => T_pointer pointee
  end.

(** The object built by [new T(value)]. *)
Definition box (t : ctype) : cval t → object :=
  match t with
  | T_bool => O_bool
  | T_int => O_int
  | T_uint64_t => O_uint64_t
  | T_float => O_float
  | T_aiString => O_aiString
  | T_aiVector3D => O_aiVector3D
  | T_short => O_short
  | T_unsigned_short => O_unsigned_short
  | T_char => O_char
  | T_signed_char => O_signed_char
  | T_unsigned_char => O_unsigned_char
  | T_enum id => O_enum id
  | T_pointer pointee => O_pointer pointee
  end.

(** Reading an object through a [T*]: defined only when it is a [T]. *)
Definition unbox (t : ctype) (o : object) : option (cval t) :=
  match t return option (cval t) with
  | T_bool => match o with O_bool b => Some b | _ => None end
  | T_int => match o with O_int z => Some z | _ => None end
  | T_uint64_t => match o with O_uint64_t z => Some z | _ => None end
  | T_float => match o with O_float f => Some f | _ => None end
  | T_aiString => match o with O_aiString s => Some s | _ => None end
  | T_aiVector3D => match o with O_aiVector3D v => Some v | _ => None end
  | T_short => match o with O_short z => Some z | _ => None end
  | T_unsigned_short => match o with O_unsigned_short z => Some z | _ => None end
  | T_char => match o with O_char z => Some z | _ => None end
  | T_signed_char => match o with O_signed_char z => Some z | _ => None end
  | T_unsigned_char => match o with O_unsigned_char z => Some z | _ => None end
  | T_enum id =>
      match o with
      | O_enum id' z => if decide (id' = id) then Some z else None
      | _ => None
      end
  | T_pointer pointee =>
      match o with
      | O_pointer pointee' p => if decide (pointee' = pointee) then Some p else None
      | _ => None
      end
  end.

(** [struct aiMetadata]. *)
Record aiMetadata : Type := mk_aiMetadata {
  mNumProperties : nat;
  mKeys : array_ptr aiString;
  mValues : array_ptr aiMetaDataEntry
}.

(** Machine state: the store object the member functions run on, the
    objects allocated by [new T(value)] (the two arrays, which live on
    the free store as well, are carried by the store's pointer fields),
    and the ghost trace. *)
Record state : Type := mk_state {
  this : aiMetadata;
  heap : gmap loc object;
  log : list event
}.

Definition M : Type → Type := StErr.M state.

Definition set_this (f : aiMetadata → aiMetadata) (σ : state) : state :=
  {| this := f (this σ); heap := heap σ; log := log σ |}.
Definition set_heap (f : gmap loc object → gmap loc object) (σ : state) : state :=
  {| this := this σ; heap := f (heap σ); log := log σ |}.
Definition set_mKeys (ks : list aiString) (s : aiMetadata) : aiMetadata :=
  {| mNumProperties := mNumProperties s; mKeys := Array ks; mValues := mValues s |}.
Definition set_mValues (vs : list aiMetaDataEntry) (s : aiMetadata) : aiMetadata :=
  {| mNumProperties := mNumProperties s; mKeys := mKeys s; mValues := Array vs |}.
Definition set_type (k : aiType) (e : aiMetaDataEntry) : aiMetaDataEntry :=
  {| type := k; data := data e |}.
Definition set_data (p : ptr) (e : aiMetaDataEntry) : aiMetaDataEntry :=
  {| type := type e; data := p |}.

(** Append to the ghost trace. *)
Definition append_log (es : list event) (σ : state) : state :=
  {| this := this σ; heap := heap σ; log := log σ ++ es |}.
Definition tell (e : event) : M unit := StErr.modify (append_log [e]).

(** *** [GetAiType]

    Six overloads. The parameter is unnamed and unused in every one: the
    static type of the argument alone selects the result. The first six
    lines are the overloads themselves; the last two are what overload
    resolution selects for the other argument types (integral promotion
    to [int]; pointer to [bool]). *)
Definition GetAiType (t : ctype) : aiType :=
  match t with
  | T_bool => AI_BOOL
  | T_int => AI_INT
  | T_uint64_t => AI_UINT64
  | T_float => AI_FLOAT
  | T_aiString => AI_AISTRING
  | T_aiVector3D => AI_AIVECTOR3D
  | T_short | T_unsigned_short | T_char | T_signed_char | T_unsigned_char
  | T_enum _ => AI_INT
  | T_pointer _ => AI_BOOL
  end.

(** *** The free store *)

(** [new T(value)]: a fresh address holding a copy of [value]. *)
Definition new (t : ctype) (value : cval t) : M loc :=
  σ ← StErr.get;
  let p := fresh (dom (heap σ)) in
  StErr.modify (set_heap (<[p := box t value]>)) ;;
  tell (EvNew p) ;;
  mret p.

(** [operator delete(p)]: returns the storage at [p]; nothing happens
    for a null pointer; a pointer to no live object is undefined. *)
Definition operator_delete (p : ptr) : M unit :=
  match p with
  | None => mret tt
  | Some l =>
      σ ← StErr.get;
      match heap σ !! l with
      | Some _ =>
          StErr.modify (set_heap (delete l)) ;;
          tell (EvOperatorDelete p)
      | None => StErr.undefined
      end
  end.

(** [*static_cast<T*>(data)]: defined when [data] is the address of a
    live object of type [T]. *)
Definition deref (t : ctype) (h : gmap loc object) (data : ptr) : option (cval t) :=
  p ← data; o ← h !! p; unbox t o.

(** *** [transform] *)

(** Something that can be passed as the template argument [c]: what it
    does when applied to a re-typed pointer, and a name for the trace. *)
Record callable : Type := mk_callable {
  callee_name : string;
  call : typed_ptr → M unit
}.

(** [operator delete] viewed as a function of one [void*]; a [T*]
    argument converts to [void*], so the pointee type is ignored. *)
Definition operator_delete_fn : callable :=
  {| callee_name := "operator delete";
     call := λ tp, operator_delete (address tp) |}.

(** The statement [callable(static_cast<T*>(data));]. Inside the
    template [callable] is the name of the type parameter, so this is an
    explicit conversion of the pointer to type [callable] in functional
    notation; the resulting temporary is discarded. The function
    argument [c] does not occur in it. *)
Definition callable_conversion (e : typed_ptr) : M unit := mret tt.

(** [template<typename callable> void transform(aiType type, void* data,
    callable c)]. The first line is ghost: it records the call in the
    trace. The [default:] branch is [assert(false)]. *)
Definition transform (type : aiType) (data : ptr) (c : callable) : M unit :=
  tell (EvTransform type data (callee_name c)) ;;
  match type with
  | AI_BOOL => callable_conversion (static_cast T_bool data)
  | AI_INT => callable_conversion (static_cast T_int data)
  | AI_UINT64 => callable_conversion (static_cast T_uint64_t data)
  | AI_FLOAT => callable_conversion (static_cast T_float data)
  | AI_AISTRING => callable_conversion (static_cast T_aiString data)
  | AI_AIVECTOR3D => callable_conversion (static_cast T_aiVector3D data)
  | FORCE_32BIT => StErr.assert false
  end.

(** The overload taking an [aiMetaDataEntry]. *)
Definition transform_entry (entry : aiMetaDataEntry) (c : callable) : M unit :=
  transform (type entry) (data entry) c.

(** *** [aiMetadata] member functions *)

(** [for (unsigned i = start; i < start + count; ++i) body(i)], for a
    body that does not write the bound. *)
Fixpoint for_each_index (count start : nat) (body : nat → M unit) : M unit :=
  match count with
  | 0 => mret tt
  | S count' => body start ;; for_each_index count' (S start) body
  end.

(** [mValues[i]] and [mKeys[i]]: a null or dangling pointer or an index
    past the end of the array has no defined behaviour. *)
Definition read_mValues (i : nat) : M aiMetaDataEntry :=
  σ ← StErr.get;
  vs ← StErr.defined (contents (mValues (this σ)));
  StErr.defined (vs !! i).
Definition read_mKeys (i : nat) : M aiString :=
  σ ← StErr.get;
  ks ← StErr.defined (contents (mKeys (this σ)));
  StErr.defined (ks !! i).
Definition write_mValues (i : nat) (f : aiMetaDataEntry → aiMetaDataEntry) : M unit :=
  σ ← StErr.get;
  vs ← StErr.defined (contents (mValues (this σ)));
  e ← StErr.defined (vs !! i);
  StErr.modify (set_this (set_mValues (<[i := f e]> vs))).
Definition write_mKeys (i : nat) (f : aiString → aiString) : M unit :=
  σ ← StErr.get;
  ks ← StErr.defined (contents (mKeys (this σ)));
  k ← StErr.defined (ks !! i);
  StErr.modify (set_this (set_mKeys (<[i := f k]> ks))).

(** [aiMetadata()] *)
Definition aiMetadata_ctor : M unit :=
  StErr.modify (set_this (λ _,
    {| mNumProperties := 0; mKeys := Null_array; mValues := Null_array |})).

(** [delete [] mKeys] and [delete [] mValues]: the array is released and
    the pointer left dangling; releasing through a pointer that is not
    the address of a live array is undefined. (A null pointer never gets
    here: both calls sit behind an [if].) *)
Definition delete_mKeys : M unit :=
  σ ← StErr.get;
  match mKeys (this σ) with
  | Array _ =>
      tell (EvDeleteArray Keys_array) ;;
      StErr.modify (set_this (λ s,
        {| mNumProperties := mNumProperties s; mKeys := Dangling;
           mValues := mValues s |}))
  | _ => StErr.undefined
  end.
Definition delete_mValues : M unit :=
  σ ← StErr.get;
  match mValues (this σ) with
  | Array _ =>
      tell (EvDeleteArray Values_array) ;;
      StErr.modify (set_this (λ s,
        {| mNumProperties := mNumProperties s; mKeys := mKeys s;
           mValues := Dangling |}))
  | _ => StErr.undefined
  end.

(** [~aiMetadata()] *)
Definition aiMetadata_dtor : M unit :=
  σ ← StErr.get;
  (if non_null (mKeys (this σ)) then delete_mKeys else mret tt) ;;
  σ ← StErr.get;
  if non_null (mValues (this σ)) then
    for_each_index (mNumProperties (this σ)) 0
      (λ i, e ← read_mValues i; transform_entry e operator_delete_fn) ;;
    delete_mValues
  else mret tt.

(** [template<typename T> void Set(unsigned index, const std::string& key,
    const T& value)] *)
Definition Set_ (t : ctype) (index : nat) (key : std_string) (value : cval t) : M unit :=
  σ ← StErr.get;
  StErr.assert (bool_decide (index < mNumProperties (this σ))) ;;
  write_mKeys index (λ k, aiString_assign k key) ;;
  write_mValues index (set_type (GetAiType t)) ;;
  p ← new t value;
  write_mValues index (set_data (Some p)).

(** [template<typename T> bool Get(unsigned index, T& value)]; the
    result carries the value of the reference argument on return. *)
Definition Get (t : ctype) (index : nat) (value : cval t) : M (bool * cval t) :=
  e ← read_mValues index;
  if decide (GetAiType t ≠ type e) then mret (false, value)
  else
    σ ← StErr.get;
    v ← StErr.defined (deref t (heap σ) (data e));
    mret (true, v).

(** The loop of [Get(const aiString& key, T& value)], [count]
    iterations from index [i]. *)
Fixpoint Get_key_from (t : ctype) (count i : nat) (key : aiString) (value : cval t)
    : M (bool * cval t) :=
  match count with
  | 0 => mret (false, value)
  | S count' =>
      k ← read_mKeys i;
      if aiString_eq k key then Get t i value
      else Get_key_from t count' (S i) key value
  end.

(** [template<typename T> bool Get(const aiString& key, T& value)] *)
Definition Get_key (t : ctype) (key : aiString) (value : cval t) : M (bool * cval t) :=
  σ ← StErr.get;
  Get_key_from t (mNumProperties (this σ)) 0 key value.

(** ** Auxiliary definitions for the statements *)

(** The key array as a list; a null array has no elements. *)
Definition keys_of (s : aiMetadata) : list aiString := default [] (contents (mKeys s)).

(** The state [Set] leaves behind when it returns. *)
Definition after_Set (t : ctype) (index : nat) (key : std_string) (value : cval t)
    (ks : list aiString) (vs : list aiMetaDataEntry) (σ : state) : state :=
  let p := fresh (dom (heap σ)) in
  {| this := {| mNumProperties := mNumProperties (this σ);
                mKeys := Array (alter (λ k, aiString_assign k key) index ks);
                mValues := Array (<[index := mk_entry (GetAiType t) (Some p)]> vs) |};
     heap := <[p := box t value]> (heap σ);
     log := log σ ++ [EvNew p] |}.

(** ** Release of owned objects, as predicates on a run *)


(** How often the object at [p] was handed to [operator delete]. *)
Definition times_deleted (p : loc) (es : list event) : nat :=
  length (filter (λ ev, ev = EvOperatorDelete (Some p)) es).

(** Every object a slot of [σ] points to is gone in [σ'], deleted
    exactly once since [σ]. *)
Definition entries_destroyed_once (σ σ' : state) : Prop :=
  ∀ vs i e p, mValues (this σ) = Array vs → vs !! i = Some e →
              data e = Some p →
              heap σ' !! p = None
              ∧ times_deleted p (drop (length (log σ)) (log σ')) = 1.

(** ** The store invariant *)

(** A slot is either empty (null pointer) or points to a live object of
    the concrete type its tag names: an object of one of the six
    overload types, tagged with that type's kind. *)
Definition slot_ok (h : gmap loc object) (e : aiMetaDataEntry) : Prop :=
  ∀ p, data e = Some p →
       ∃ o, h !! p = Some o ∧ exact_match (dynamic_type o) = true
            ∧ type e = GetAiType (dynamic_type o).

(** Both arrays are present with [mNumProperties] elements, every slot is
    [slot_ok], and no two slots point to the same object. *)
Definition store_ok (σ : state) : Prop :=
  ∃ ks vs,
    mKeys (this σ) = Array ks ∧ mValues (this σ) = Array vs
    ∧ length ks = mNumProperties (this σ)
    ∧ length vs = mNumProperties (this σ)
    ∧ Forall (slot_ok (heap σ)) vs
    ∧ NoDup (omap data vs).

(** The state after [delete [] mKeys] and after [delete [] mValues]. *)
Definition after_delete_mKeys (σ : state) : state :=
  set_this (λ s, {| mNumProperties := mNumProperties s; mKeys := Dangling;
                    mValues := mValues s |})
    (append_log [EvDeleteArray Keys_array] σ).
Definition after_delete_mValues (σ : state) : state :=
  set_this (λ s, {| mNumProperties := mNumProperties s; mKeys := mKeys s;
                    mValues := Dangling |})
    (append_log [EvDeleteArray Values_array] σ).

(** What a run may change besides the trace: nothing. *)
Definition same_store_and_heap (σ σ' : state) : Prop :=
  this σ' = this σ ∧ heap σ' = heap σ.

(** ** Stepping lemmas for the monad *)

Lemma bind_Ok {A B} (m : M A) (k : A → M B) σ a σ' :
  m σ = Ok (a, σ') → (m ≫= k) σ = k a σ'.
Proof. intros E. unfold mbind, sterr_bind, StErr.bind. by rewrite E. Qed.

Lemma bind_AssertFail {A B} (m : M A) (k : A → M B) σ :
  m σ = AssertFail → (m ≫= k) σ = AssertFail.
Proof. intros E. unfold mbind, sterr_bind, StErr.bind. by rewrite E. Qed.

Lemma bind_Undefined {A B} (m : M A) (k : A → M B) σ :
  m σ = Undefined → (m ≫= k) σ = Undefined.
Proof. intros E. unfold mbind, sterr_bind, StErr.bind. by rewrite E. Qed.

Lemma read_mValues_Ok i σ vs e :
  mValues (this σ) = Array vs → vs !! i = Some e →
  read_mValues i σ = Ok (e, σ).
Proof.
  intros Hv He. unfold read_mValues.
  rewrite (bind_Ok _ _ σ σ σ) by done.
  rewrite Hv. cbn. rewrite (bind_Ok _ _ σ vs σ) by done.
  by rewrite He.
Qed.

Lemma read_mValues_past_end i σ vs :
  mValues (this σ) = Array vs → length vs ≤ i →
  read_mValues i σ = Undefined.
Proof.
  intros Hv Hi. unfold read_mValues.
  rewrite (bind_Ok _ _ σ σ σ) by done.
  rewrite Hv. cbn. rewrite (bind_Ok _ _ σ vs σ) by done.
  by rewrite (lookup_ge_None_2 vs i).
Qed.

Lemma read_mValues_null i σ :
  contents (mValues (this σ)) = None → read_mValues i σ = Undefined.
Proof.
  intros Hv. unfold read_mValues.
  rewrite (bind_Ok _ _ σ σ σ) by done.
  by rewrite Hv.
Qed.

Lemma read_mKeys_Ok i σ ks k :
  mKeys (this σ) = Array ks → ks !! i = Some k →
  read_mKeys i σ = Ok (k, σ).
Proof.
  intros Hk He. unfold read_mKeys.
  rewrite (bind_Ok _ _ σ σ σ) by done.
  rewrite Hk. cbn. rewrite (bind_Ok _ _ σ ks σ) by done.
  by rewrite He.
Qed.

(** [read_mValues] and [read_mKeys] never change the state. *)
Lemma read_mValues_cases i σ :
  read_mValues i σ = Undefined ∨ ∃ e, read_mValues i σ = Ok (e, σ).
Proof.
  destruct (mValues (this σ)) as [|vs|] eqn:Hv.
  - left. apply read_mValues_null. by rewrite Hv.
  - destruct (vs !! i) as [e|] eqn:He.
    + right. exists e. by eapply read_mValues_Ok.
    + left. eapply read_mValues_past_end; [done|]. by apply lookup_ge_None.
  - left. apply read_mValues_null. by rewrite Hv.
Qed.

Lemma read_mKeys_cases i σ :
  read_mKeys i σ = Undefined ∨ ∃ k, read_mKeys i σ = Ok (k, σ).
Proof.
  unfold read_mKeys. rewrite (bind_Ok _ _ σ σ σ) by done.
  destruct (mKeys (this σ)) as [|ks|]; [by left| |by left].
  cbn. rewrite (bind_Ok _ _ σ ks σ) by done.
  destruct (ks !! i) as [k|]; [right; by exists k | by left].
Qed.

Lemma aiType_code_inj : Inj (=) (=) aiType_code.
Proof. intros k1 k2. by destruct k1, k2. Qed.

Lemma dynamic_type_box t (v : cval t) : dynamic_type (box t v) = t.
Proof. by destruct t. Qed.

Lemma unbox_Some t o (v : cval t) : unbox t o = Some v → o = box t v.
Proof.
  destruct t, o; cbn; try congruence; case_decide; try congruence;
    intros [= ->]; by subst.
Qed.

Lemma GetAiType_inj t1 t2 :
  exact_match t1 = true → exact_match t2 = true →
  GetAiType t1 = GetAiType t2 → t1 = t2.
Proof. by destruct t1, t2. Qed.

Lemma unbox_box t (v : cval t) : unbox t (box t v) = Some v.
Proof. destruct t; cbn; try done; by rewrite decide_True. Qed.


(** [Get] at an index whose entry carries the tag of [T]. *)
Lemma Get_same_tag t index value σ vs e :
  mValues (this σ) = Array vs → vs !! index = Some e →
  type e = GetAiType t →
  Get t index value σ =
    match deref t (heap σ) (data e) with
    | Some v => Ok ((true, v), σ)
    | None => Undefined
    end.
Proof.
  intros Hv He Ht. unfold Get.
  rewrite (bind_Ok _ _ σ e σ) by by eapply read_mValues_Ok.
  rewrite decide_False by (rewrite Ht; tauto).
  rewrite (bind_Ok _ _ σ σ σ) by done.
  destruct (deref t (heap σ) (data e)) as [v|]; [|done]. cbn.
  by rewrite (bind_Ok _ _ σ v σ).
Qed.

Lemma Get_other_tag t index value σ vs e :
  mValues (this σ) = Array vs → vs !! index = Some e →
  type e ≠ GetAiType t →
  Get t index value σ = Ok ((false, value), σ).
Proof.
  intros Hv He Ht. unfold Get.
  rewrite (bind_Ok _ _ σ e σ) by by eapply read_mValues_Ok.
  by rewrite decide_True by congruence.
Qed.

Lemma write_mKeys_Ok i f σ ks k :
  mKeys (this σ) = Array ks → ks !! i = Some k →
  write_mKeys i f σ = Ok (tt, set_this (set_mKeys (<[i := f k]> ks)) σ).
Proof.
  intros Hk He. unfold write_mKeys.
  rewrite (bind_Ok _ _ σ σ σ) by done.
  rewrite Hk. cbn. rewrite (bind_Ok _ _ σ ks σ) by done.
  rewrite He. cbn. by rewrite (bind_Ok _ _ σ k σ).
Qed.

Lemma write_mValues_Ok i f σ vs e :
  mValues (this σ) = Array vs → vs !! i = Some e →
  write_mValues i f σ = Ok (tt, set_this (set_mValues (<[i := f e]> vs)) σ).
Proof.
  intros Hv He. unfold write_mValues.
  rewrite (bind_Ok _ _ σ σ σ) by done.
  rewrite Hv. cbn. rewrite (bind_Ok _ _ σ vs σ) by done.
  rewrite He. cbn. by rewrite (bind_Ok _ _ σ e σ).
Qed.

Lemma new_Ok t value σ :
  new t value σ =
    Ok (fresh (dom (heap σ)),
        {| this := this σ;
           heap := <[fresh (dom (heap σ)) := box t value]> (heap σ);
           log := log σ ++ [EvNew (fresh (dom (heap σ)))] |}).
Proof. reflexivity. Qed.

Lemma Set_Ok t index key value σ ks vs :
  mKeys (this σ) = Array ks → mValues (this σ) = Array vs →
  index < mNumProperties (this σ) →
  index < length ks → index < length vs →
  Set_ t index key value σ = Ok (tt, after_Set t index key value ks vs σ).
Proof.
  intros Hk Hv Hn Hik Hiv.
  destruct (lookup_lt_is_Some_2 ks index Hik) as [k Ek].
  destruct (lookup_lt_is_Some_2 vs index Hiv) as [e Ee].
  unfold Set_.
  rewrite (bind_Ok _ _ σ σ σ) by done.
  rewrite (bind_Ok _ _ σ tt σ)
    by (unfold StErr.assert; by rewrite bool_decide_eq_true_2).
  erewrite bind_Ok by by eapply write_mKeys_Ok.
  erewrite bind_Ok by by eapply write_mValues_Ok.
  erewrite bind_Ok by apply new_Ok.
  erewrite write_mValues_Ok;
    [| done | cbn; by apply list_lookup_insert_eq ].
  unfold after_Set, set_this, set_mValues, set_mKeys, set_heap, set_data, set_type.
  cbn. rewrite list_insert_insert_eq.
  assert (<[index := aiString_assign k key]> ks
          = alter (λ k, aiString_assign k key) index ks) as ->; [|done].
  apply list_eq. intros j.
  destruct (decide (j = index)) as [->|Hne].
  - rewrite list_lookup_insert_eq, list_lookup_alter_eq by done. by rewrite Ek.
  - by rewrite list_lookup_insert_ne, list_lookup_alter_ne.
Qed.

Lemma Get_cases t index value σ :
  Get t index value σ = Undefined ∨ ∃ r, Get t index value σ = Ok (r, σ).
Proof.
  destruct (read_mValues_cases index σ) as [E|[e E]]; unfold Get.
  - left. by apply bind_Undefined.
  - rewrite (bind_Ok _ _ σ e σ) by done.
    destruct (decide (GetAiType t ≠ type e)); [right; by eexists|].
    rewrite (bind_Ok _ _ σ σ σ) by done.
    destruct (deref t (heap σ) (data e)) as [v|]; [right|by left].
    exists (true, v). by rewrite (bind_Ok _ _ σ v σ).
Qed.

Lemma Get_key_from_cases t count i key value σ :
  Get_key_from t count i key value σ = Undefined
  ∨ ∃ r, Get_key_from t count i key value σ = Ok (r, σ).
Proof.
  revert i. induction count as [|count IH]; intros i; cbn [Get_key_from].
  - right. by eexists.
  - destruct (read_mKeys_cases i σ) as [E|[k E]].
    + left. by apply bind_Undefined.
    + rewrite (bind_Ok _ _ σ k σ) by done.
      destruct (aiString_eq k key); [apply Get_cases | apply IH].
Qed.

Lemma append_log_app es1 es2 σ :
  append_log es2 (append_log es1 σ) = append_log (es1 ++ es2) σ.
Proof. unfold append_log. cbn. by rewrite <-(assoc_L (++)). Qed.

Lemma append_log_nil σ : append_log [] σ = σ.
Proof. destruct σ. unfold append_log. cbn. by rewrite app_nil_r. Qed.

Lemma transform_value_kind k data c σ :
  value_kind k = true →
  transform k data c σ = Ok (tt, append_log [EvTransform k data (callee_name c)] σ).
Proof. by destruct k. Qed.

(** The keyed [Get]'s loop over keys [i .. i + count - 1]. *)
Lemma Get_key_from_no_match t count : ∀ i key (out : cval t) σ ks,
  mKeys (this σ) = Array ks → i + count ≤ length ks →
  (∀ j k, i ≤ j < i + count → ks !! j = Some k → aiString_eq k key = false) →
  Get_key_from t count i key out σ = Ok ((false, out), σ).
Proof.
  induction count as [|count IH]; intros i key out σ ks Hks Hlen Hno;
    cbn [Get_key_from]; [done|].
  destruct (lookup_lt_is_Some_2 ks i) as [k Hk]; [lia|].
  rewrite (bind_Ok _ _ σ k σ) by by eapply read_mKeys_Ok.
  rewrite (Hno i k) by (done || lia).
  eapply IH; [done | lia |]. intros j k' Hj. apply Hno. lia.
Qed.

Lemma Get_key_from_first_match t count : ∀ i m key (out : cval t) σ ks k,
  mKeys (this σ) = Array ks → i + count ≤ length ks →
  i ≤ m < i + count → ks !! m = Some k → aiString_eq k key = true →
  (∀ j k', i ≤ j < m → ks !! j = Some k' → aiString_eq k' key = false) →
  Get_key_from t count i key out σ = Get t m out σ.
Proof.
  induction count as [|count IH]; intros i m key out σ ks k Hks Hlen Hm Hk Heq Hno;
    cbn [Get_key_from]; [lia|].
  destruct (decide (i = m)) as [->|Hne].
  - rewrite (bind_Ok _ _ σ k σ) by by eapply read_mKeys_Ok.
    by rewrite Heq.
  - destruct (lookup_lt_is_Some_2 ks i) as [ki Hki]; [lia|].
    rewrite (bind_Ok _ _ σ ki σ) by by eapply read_mKeys_Ok.
    rewrite (Hno i ki) by (done || lia).
    eapply IH; [done | lia | lia | done | done |].
    intros j k' Hj. apply Hno. lia.
Qed.

(** ** The type registry *)


(** ** Typed get *)

(** C1. When the entry at index [index] carries the kind of [K] and the
    reference argument has a static type [t] that maps to another kind
    (for two of the six overload types: whenever [t] is not [K]), [Get]
    returns false and the argument keeps its prior value; nothing else
    changes either. *)
Theorem Get_type_mismatch (K t : ctype) index (out : cval t) σ vs e :
  mValues (this σ) = Array vs → vs !! index = Some e →
  type e = GetAiType K →
  GetAiType t ≠ GetAiType K
  ∨ (exact_match t = true ∧ exact_match K = true ∧ t ≠ K) →
  Get t index out σ = Ok ((false, out), σ).
Proof.
  intros Hv He HK Hne. eapply Get_other_tag; [done..|].
  rewrite HK. intros E. destruct Hne as [Hne|(Ht & HKe & Hne)]; [done|].
  by apply GetAiType_inj in E.
Qed.

(** C2. [Set(index, key, v)] at an index below the property count,
    followed by [Get(index, out)] at the same static type, returns true
    with [out] equal to [v]. *)
Theorem Set_then_Get_roundtrip t index key (v out : cval t) σ ks vs :
  mKeys (this σ) = Array ks → mValues (this σ) = Array vs →
  index < mNumProperties (this σ) →
  index < length ks → index < length vs →
  ∃ σ', Set_ t index key v σ = Ok (tt, σ')
        ∧ Get t index out σ' = Ok ((true, v), σ').
Proof.
  intros Hk Hv Hn Hik Hiv. eexists. split; [by apply Set_Ok|].
  erewrite Get_same_tag;
    [ | done | cbn; by apply list_lookup_insert_eq | done ].
  cbn. unfold deref. cbn. rewrite lookup_insert_eq. cbn.
  by rewrite unbox_box.
Qed.

(** C10. Neither [Get] overload writes anything: whenever a call
    returns, with true or with false, the whole state (property count,
    keys, entries, heap objects) is the one before the call. *)
Theorem Get_leaves_state_unchanged t index key (out : cval t) σ :
  (Get t index out σ = Undefined ∨ ∃ r, Get t index out σ = Ok (r, σ)) ∧
  (Get_key t key out σ = Undefined ∨ ∃ r, Get_key t key out σ = Ok (r, σ)).
Proof.
  split; [apply Get_cases|].
  unfold Get_key. rewrite (bind_Ok _ _ σ σ σ) by done.
  apply Get_key_from_cases.
Qed.

(** ** Destruction *)

(** C8. The destructor does nothing on a default-constructed store:
    null key and value arrays, zero properties, no array released, no
    entry dispatched, state unchanged. *)
Theorem dtor_of_default_constructed_is_noop σ :
  ∃ σ', aiMetadata_ctor σ = Ok (tt, σ')
        ∧ this σ' = mk_aiMetadata 0 Null_array Null_array
        ∧ aiMetadata_dtor σ' = Ok (tt, σ').
Proof. eexists. split_and!; reflexivity. Qed.

(** ** Dispatch *)

(** C4 (what the code does). For each of the six kinds [transform]
    returns without applying [c]: the outcome is the same for every
    callable, and apart from the trace entry the state is untouched. *)
Theorem transform_never_applies_callable t data c σ :
  transform (GetAiType t) data c σ
  = Ok (tt, append_log [EvTransform (GetAiType t) data (callee_name c)] σ).
Proof. by destruct t. Qed.

(** ** Index range *)

(** C5 (what the code does). On a store of [length vs] properties, an
    index at or past the count stops [Set] in its assertion, while
    [Get] carries no check and reads [mValues] past its end. *)
Theorem Get_past_the_end_is_unchecked t ks vs j (out : cval t) h l :
  let σ := mk_state (mk_aiMetadata (length vs) (Array ks) (Array vs)) h l in
  Get t (length vs + j) out σ = Undefined
  ∧ ∀ key v, Set_ t (length vs + j) key v σ = AssertFail.
Proof.
  intros σ. split.
  - unfold Get. apply bind_Undefined.
    eapply read_mValues_past_end; [done|lia].
  - intros key v. unfold Set_.
    rewrite (bind_Ok _ _ σ σ σ) by done.
    apply bind_AssertFail. unfold StErr.assert.
    rewrite bool_decide_eq_false_2; [done|]. cbn. lia.
Qed.

(** ** Keyed get *)

(** C7. On a store whose key array covers the property count, the
    keyed [Get] is the indexed [Get] at the first index, in increasing
    order, whose key equals the argument: whatever that call returns
    (a type mismatch there included) is the result, later duplicates
    are not looked at; when no key below the count is equal it returns
    false and leaves the argument alone. *)
Theorem Get_key_first_match t key (out : cval t) σ :
  mNumProperties (this σ) ≤ length (keys_of (this σ)) →
  (∀ m k, m < mNumProperties (this σ) → keys_of (this σ) !! m = Some k →
      aiString_eq k key = true →
      (∀ j k', j < m → keys_of (this σ) !! j = Some k' → aiString_eq k' key = false) →
      Get_key t key out σ = Get t m out σ)
  ∧ ((∀ j k', j < mNumProperties (this σ) → keys_of (this σ) !! j = Some k' →
        aiString_eq k' key = false) →
      Get_key t key out σ = Ok ((false, out), σ)).
Proof.
  unfold keys_of, Get_key. intros Hlen.
  destruct (mKeys (this σ)) as [|ks|] eqn:Hks; cbn in *.
  2:{ split.
    + intros m k Hm Hk Heq Hno.
      rewrite (bind_Ok _ _ σ σ σ) by done.
      eapply Get_key_from_first_match; [done | lia | lia | done | done |].
      intros j k' Hj. apply Hno. lia.
    + intros Hno. rewrite (bind_Ok _ _ σ σ σ) by done.
      eapply Get_key_from_no_match; [done | lia |].
      intros j k' Hj. apply Hno. lia. }
  all: assert (mNumProperties (this σ) = 0) as Hz by lia;
    (split; [intros; lia|]);
    intros _; rewrite (bind_Ok _ _ σ σ σ) by done; by rewrite Hz.
Qed.

(** ** Re-setting a slot *)


(** ** Further properties of the member functions *)

Lemma object_of_type t o : dynamic_type o = t → ∃ v : cval t, o = box t v.
Proof. intros <-. destruct o; cbn; by eexists. Qed.

Lemma deref_Some t h d (v : cval t) :
  deref t h d = Some v ↔ ∃ p, d = Some p ∧ h !! p = Some (box t v).
Proof.
  unfold deref. split.
  - destruct d as [p|]; cbn; [|done].
    destruct (h !! p) as [o|] eqn:Ho; cbn; [|done].
    intros Hu. exists p. split; [done|]. rewrite Ho. f_equal. by apply unbox_Some.
  - intros (p & -> & Hp). cbn. rewrite Hp. cbn. apply unbox_box.
Qed.

Lemma deref_insert_fresh t h d (v : cval t) q o :
  h !! q = None → deref t h d = Some v → deref t (<[q := o]> h) d = Some v.
Proof.
  intros Hq. rewrite !deref_Some. intros (p & -> & Hp).
  exists p. split; [done|]. rewrite lookup_insert_ne; [done|]. congruence.
Qed.

Lemma fresh_not_live (h : gmap loc object) : h !! fresh (dom h) = None.
Proof. apply not_elem_of_dom. apply is_fresh. Qed.

Lemma read_mValues_inv i σ e σ' :
  read_mValues i σ = Ok (e, σ') →
  σ' = σ ∧ ∃ vs, mValues (this σ) = Array vs ∧ vs !! i = Some e.
Proof.
  intros H. destruct (mValues (this σ)) as [|vs|] eqn:Hv.
  - rewrite (read_mValues_null i σ) in H; [done|]. by rewrite Hv.
  - destruct (vs !! i) as [e'|] eqn:He.
    + rewrite (read_mValues_Ok i σ vs e' Hv He) in H. injection H as -> ->.
      split; [done|]. by exists vs.
    + rewrite (read_mValues_past_end i σ vs Hv) in H; [done|].
      by apply lookup_ge_None.
  - rewrite (read_mValues_null i σ) in H; [done|]. by rewrite Hv.
Qed.

Lemma Get_Ok_inv t index value σ r σ' :
  Get t index value σ = Ok (r, σ') →
  σ' = σ ∧ ∃ vs e, mValues (this σ) = Array vs ∧ vs !! index = Some e.
Proof.
  intros H. destruct (read_mValues_cases index σ) as [E|[e E]].
  - unfold Get in H. by rewrite (bind_Undefined _ _ σ E) in H.
  - destruct (read_mValues_inv _ _ _ _ E) as [_ (vs & Hv & He)].
    destruct (Get_cases t index value σ) as [E'|[r' E']];
      rewrite E' in H; [done|]. injection H as _ <-.
    split; [done|]. by exists vs, e.
Qed.

(** [Get] at another index after a [Set]. *)
Lemma Get_after_Set_other t index key (v : cval t) σ ks vs t' j (out : cval t') r :
  j ≠ index → Get t' j out σ = Ok (r, σ) →
  mValues (this σ) = Array vs →
  Get t' j out (after_Set t index key v ks vs σ)
  = Ok (r, after_Set t index key v ks vs σ).
Proof.
  intros Hne HG Hv.
  destruct (Get_Ok_inv _ _ _ _ _ _ HG) as [_ (vs' & e & Hv' & He)].
  assert (vs' = vs) as -> by congruence.
  assert (<[index := mk_entry (GetAiType t) (Some (fresh (dom (heap σ))))]> vs !! j
          = Some e) as He' by by rewrite list_lookup_insert_ne.
  destruct (decide (type e = GetAiType t')) as [Ht|Ht].
  - rewrite (Get_same_tag t' j out σ vs e Hv He Ht) in HG.
    destruct (deref t' (heap σ) (data e)) as [w|] eqn:Hd; [|done].
    injection HG as <-.
    erewrite Get_same_tag; [| done | exact He' | done ].
    cbn. by rewrite (deref_insert_fresh _ _ _ w _ _ (fresh_not_live _) Hd).
  - rewrite (Get_other_tag t' j out σ vs e Hv He Ht) in HG.
    injection HG as <-.
    by eapply Get_other_tag.
Qed.

Lemma delete_mKeys_Array σ ks :
  mKeys (this σ) = Array ks → delete_mKeys σ = Ok (tt, after_delete_mKeys σ).
Proof.
  intros H. unfold delete_mKeys. rewrite (bind_Ok _ _ σ σ σ) by done.
  by rewrite H.
Qed.

Lemma delete_mValues_Array σ vs :
  mValues (this σ) = Array vs → delete_mValues σ = Ok (tt, after_delete_mValues σ).
Proof.
  intros H. unfold delete_mValues. rewrite (bind_Ok _ _ σ σ σ) by done.
  by rewrite H.
Qed.

Lemma delete_mValues_Dangling σ :
  mValues (this σ) = Dangling → delete_mValues σ = Undefined.
Proof.
  intros H. unfold delete_mValues. rewrite (bind_Ok _ _ σ σ σ) by done.
  by rewrite H.
Qed.

(** The destructor's first statement, [if (mKeys) delete [] mKeys;]. *)
Lemma dtor_keys_step σ :
  let step : M unit :=
    if non_null (mKeys (this σ)) then delete_mKeys else mret tt in
  (mKeys (this σ) = Dangling ∧ step σ = Undefined)
  ∨ ∃ σ1, step σ = Ok (tt, σ1)
      ∧ mKeys (this σ) ≠ Dangling
      ∧ contents (mKeys (this σ1)) = None
      ∧ mValues (this σ1) = mValues (this σ)
      ∧ mNumProperties (this σ1) = mNumProperties (this σ)
      ∧ heap σ1 = heap σ.
Proof.
  intros step. subst step.
  destruct (mKeys (this σ)) as [|ks|] eqn:Hk; cbn [non_null].
  - right. exists σ. by rewrite Hk.
  - right. exists (after_delete_mKeys σ).
    split; [by eapply delete_mKeys_Array|]. done.
  - left. split; [done|]. unfold delete_mKeys.
    rewrite (bind_Ok _ _ σ σ σ) by done. by rewrite Hk.
Qed.

Lemma transform_unmapped k data c σ :
  value_kind k = false → transform k data c σ = AssertFail.
Proof. by destruct k. Qed.

(** An unmapped tag among the slots the destructor's loop visits. *)
Lemma dtor_loop_AssertFail count : ∀ start σ vs i e,
  mValues (this σ) = Array vs →
  start ≤ i < start + count → vs !! i = Some e →
  value_kind (type e) = false →
  for_each_index count start
    (λ i, e ← read_mValues i; transform_entry e operator_delete_fn) σ
  = AssertFail.
Proof.
  induction count as [|count IH]; intros start σ vs i e Hv Hi He Hbad;
    cbn [for_each_index]; [lia|].
  destruct (lookup_lt_is_Some_2 vs start) as [e0 He0].
  { apply lookup_lt_Some in He. lia. }
  destruct (value_kind (type e0)) eqn:Hk0.
  - erewrite bind_Ok; last first.
    { erewrite bind_Ok by by eapply read_mValues_Ok.
      unfold transform_entry. by apply transform_value_kind. }
    assert (start ≠ i) by (intros ->; congruence).
    eapply (IH (S start) _ vs i e); [done | lia | done | done].
  - apply bind_AssertFail.
    erewrite bind_Ok by by eapply read_mValues_Ok.
    unfold transform_entry. by apply transform_unmapped.
Qed.

Lemma transform_Ok_inv k data c σ u σ' :
  transform k data c σ = Ok (u, σ') → same_store_and_heap σ σ'.
Proof.
  destruct (value_kind k) eqn:Hk.
  - rewrite transform_value_kind by done. by intros [= _ <-].
  - by rewrite transform_unmapped.
Qed.

Lemma dtor_loop_Ok_inv count : ∀ start σ u σ',
  for_each_index count start
    (λ i, e ← read_mValues i; transform_entry e operator_delete_fn) σ
  = Ok (u, σ') →
  same_store_and_heap σ σ'.
Proof.
  induction count as [|count IH]; intros start σ u σ'; cbn [for_each_index].
  - by intros [= _ <-].
  - destruct (read_mValues_cases start σ) as [E|[e E]].
    + by rewrite (bind_Undefined _ _ σ (bind_Undefined _ _ σ E)).
    + destruct (transform_entry e operator_delete_fn σ) as [[[] σ1]| |] eqn:Et.
      * erewrite bind_Ok; last first.
        { erewrite bind_Ok by exact E. exact Et. }
        intros Hrest. apply IH in Hrest.
        apply transform_Ok_inv in Et.
        destruct Et as [? ?], Hrest as [? ?]. split; congruence.
      * rewrite (bind_AssertFail _ _ σ); [done|].
        erewrite bind_Ok by exact E. exact Et.
      * rewrite (bind_Undefined _ _ σ); [done|].
        erewrite bind_Ok by exact E. exact Et.
Qed.

Lemma Get_after_Set_same t index key (v out : cval t) σ ks vs :
  index < length vs →
  Get t index out (after_Set t index key v ks vs σ)
  = Ok ((true, v), after_Set t index key v ks vs σ).
Proof.
  intros Hiv. erewrite Get_same_tag;
    [ | done | cbn; by apply list_lookup_insert_eq | done ].
  cbn. unfold deref. cbn. rewrite lookup_insert_eq. cbn.
  by rewrite unbox_box.
Qed.

Lemma slot_ok_insert_fresh h e o :
  slot_ok h e → slot_ok (<[fresh (dom h) := o]> h) e.
Proof.
  intros He p Hp. destruct (He p Hp) as (o' & Ho' & Ht).
  exists o'. split; [|done]. rewrite lookup_insert_ne; [done|].
  intros E. rewrite <-E, fresh_not_live in Ho'. done.
Qed.

Lemma fresh_not_owned h (l : list aiMetaDataEntry) :
  Forall (slot_ok h) l → fresh (dom h) ∉ omap data l.
Proof.
  intros Hl Hin. apply list_elem_of_omap in Hin as (e & He & Hd).
  destruct (proj1 (Forall_forall _ _) Hl e He _ Hd) as (o & Ho & _).
  by rewrite fresh_not_live in Ho.
Qed.

(** A slot that is [slot_ok] and not empty, read at one of the six
    overload types: [Get] returns, with true and the stored object when
    the tags agree and with false otherwise. *)
Lemma Get_typed_slot_cases t index (out : cval t) σ vs e p :
  exact_match t = true →
  mValues (this σ) = Array vs → vs !! index = Some e →
  slot_ok (heap σ) e → data e = Some p →
  (type e ≠ GetAiType t ∧ Get t index out σ = Ok ((false, out), σ))
  ∨ (type e = GetAiType t
     ∧ ∃ v, heap σ !! p = Some (box t v)
            ∧ Get t index out σ = Ok ((true, v), σ)).
Proof.
  intros Hex Hv He Hok Hd.
  destruct (decide (type e = GetAiType t)) as [Ht|Ht]; [right|left].
  - split; [done|].
    destruct (Hok p Hd) as (o & Ho & Hexo & Hto).
    rewrite Ht in Hto. apply GetAiType_inj in Hto; [|done..].
    destruct (object_of_type t o) as [v ->]; [done|].
    exists v. split; [done|].
    rewrite (Get_same_tag _ index out σ vs e Hv He Ht).
    rewrite (proj2 (deref_Some _ (heap σ) (data e) v)); [done|]. by exists p.
  - split; [done|]. by eapply Get_other_tag.
Qed.

Lemma Get_key_from_total t count : ∀ i key (out : cval t) σ ks vs,
  exact_match t = true →
  mKeys (this σ) = Array ks → i + count ≤ length ks →
  mValues (this σ) = Array vs → i + count ≤ length vs →
  Forall (slot_ok (heap σ)) vs → Forall (λ e, data e ≠ None) vs →
  ∃ r, Get_key_from t count i key out σ = Ok (r, σ).
Proof.
  induction count as [|count IH];
    intros i key out σ ks vs Hex Hks Hlk Hvs Hlv Hok Hset;
    cbn [Get_key_from]; [by eexists|].
  destruct (lookup_lt_is_Some_2 ks i) as [k Hk]; [lia|].
  rewrite (bind_Ok _ _ σ k σ) by by eapply read_mKeys_Ok.
  destruct (aiString_eq k key).
  - destruct (lookup_lt_is_Some_2 vs i) as [e He]; [lia|].
    pose proof (Forall_lookup_1 _ vs i e Hok He) as Hoke.
    pose proof (Forall_lookup_1 _ vs i e Hset He) as Hne.
    destruct (data e) as [p|] eqn:Hd; [|done].
    destruct (Get_typed_slot_cases t i out σ vs e p Hex Hvs He Hoke Hd)
      as [[_ E]|[_ (v & _ & E)]]; rewrite E; by eexists.
  - eapply IH; [done | done | lia | done | lia | done | done].
Qed.

(** X1. A [Set] at one index does not disturb what [Get] returns at any
    other index: a call that returned [r] before the [Set] returns the
    same [r] after it. *)
Theorem Set_keeps_other_slots
    t index key (v : cval t) σ ks vs t' j (out : cval t') r :
  mKeys (this σ) = Array ks → mValues (this σ) = Array vs →
  index < mNumProperties (this σ) →
  index < length ks → index < length vs →
  j ≠ index → Get t' j out σ = Ok (r, σ) →
  ∃ σ', Set_ t index key v σ = Ok (tt, σ') ∧ Get t' j out σ' = Ok (r, σ').
Proof.
  intros Hk Hv Hn Hik Hiv Hne HG. eexists. split; [by apply Set_Ok|].
  by apply Get_after_Set_other.
Qed.

(** X2. A returning [Set] allocates exactly one object and touches no
    other: the new address was free, every object that was live is still
    live and unchanged, the free store has one object more, and the
    property count is the same. *)
Theorem Set_allocates_one_object t index key (v : cval t) σ ks vs :
  mKeys (this σ) = Array ks → mValues (this σ) = Array vs →
  index < mNumProperties (this σ) →
  index < length ks → index < length vs →
  ∃ σ' p, Set_ t index key v σ = Ok (tt, σ')
    ∧ heap σ !! p = None
    ∧ heap σ' = <[p := box t v]> (heap σ)
    ∧ heap σ ⊆ heap σ'
    ∧ size (heap σ') = S (size (heap σ))
    ∧ mNumProperties (this σ') = mNumProperties (this σ).
Proof.
  intros Hk Hv Hn Hik Hiv.
  exists (after_Set t index key v ks vs σ), (fresh (dom (heap σ))).
  pose proof (fresh_not_live (heap σ)) as Hf.
  split_and!; [by apply Set_Ok | done | done | | | done].
  - cbn. by apply insert_subseteq.
  - cbn. by apply map_size_insert_None.
Qed.

(** X3. [Set] instantiated at one of the six overload types, at an
    index below the property count, keeps the store invariant whenever
    it returns: both arrays keep their length, every slot still is
    empty or points to a live object of the type its tag names (the
    written slot now does the latter), and no two slots share an
    object. *)
Theorem Set_preserves_store_ok t index key (v : cval t) σ σ' :
  exact_match t = true →
  store_ok σ → index < mNumProperties (this σ) →
  Set_ t index key v σ = Ok (tt, σ') → store_ok σ'.
Proof.
  intros Hex (ks & vs & Hk & Hv & Hlk & Hlv & Hok & Hnd) Hn HS.
  assert (index < length vs) as Hiv by lia.
  rewrite (Set_Ok t index key v σ ks vs) in HS by (done || lia).
  injection HS as <-.
  eexists _, _. split_and!; [reflexivity | reflexivity | | | | ]; cbn.
  - by rewrite length_alter.
  - by rewrite length_insert.
  - apply Forall_insert.
    + eapply Forall_impl; [exact Hok|]. intros e. apply slot_ok_insert_fresh.
    + intros p [= <-]. eexists. split; [apply lookup_insert_eq|].
      cbn. by rewrite dynamic_type_box.
  - destruct (lookup_lt_is_Some_2 vs index Hiv) as [e He].
    rewrite insert_take_drop by done.
    rewrite <-(take_drop_middle vs index e He) in Hnd.
    rewrite omap_app in Hnd. rewrite omap_app.
    pose proof (fresh_not_owned _ _ (Forall_take _ index _ Hok)) as HA.
    pose proof (fresh_not_owned _ _ (Forall_drop _ (S index) _ Hok)) as HB.
    apply NoDup_app in Hnd as (HndA & Hdisj & HndB).
    assert (NoDup (omap data (drop (S index) vs))
            ∧ ∀ x, x ∈ omap data (take index vs) → x ∉ omap data (drop (S index) vs))
      as [HndB' Hdisj'].
    { cbn in HndB, Hdisj. destruct (data e) as [q|].
      - apply NoDup_cons in HndB as [_ HndB]. split; [done|].
        intros x Hx Hx'. apply (Hdisj x Hx). by right.
      - done. }
    apply NoDup_app. split_and!; [done | | ].
    + cbn. intros x Hx [->|Hx']%elem_of_cons; [done|]. by apply (Hdisj' x).
    + cbn. by apply NoDup_cons.
Qed.

(** X4. On a store that satisfies the invariant, [Get] instantiated at
    one of the six overload types, at an index below the count, never
    reads an object through a pointer of another type: it returns false
    on differing tags, returns true with exactly the stored object on
    equal tags, and its only undefined case is an empty (null) slot
    whose tag equals the requested one. *)
Theorem Get_safe_on_store_ok t index (out : cval t) σ :
  exact_match t = true →
  store_ok σ → index < mNumProperties (this σ) →
  ∃ vs e, mValues (this σ) = Array vs ∧ vs !! index = Some e
    ∧ ((type e ≠ GetAiType t ∧ Get t index out σ = Ok ((false, out), σ))
       ∨ (type e = GetAiType t
          ∧ ∃ p v, data e = Some p ∧ heap σ !! p = Some (box t v)
                   ∧ Get t index out σ = Ok ((true, v), σ))
       ∨ (type e = GetAiType t ∧ data e = NULL
          ∧ Get t index out σ = Undefined)).
Proof.
  intros Hex (ks & vs & Hk & Hv & Hlk & Hlv & Hok & Hnd) Hn.
  destruct (lookup_lt_is_Some_2 vs index) as [e He]; [lia|].
  exists vs, e. split_and!; [done..|].
  pose proof (Forall_lookup_1 _ vs index e Hok He) as Hoke.
  destruct (data e) as [p|] eqn:Hd.
  - destruct (Get_typed_slot_cases t index out σ vs e p Hex Hv He Hoke Hd)
      as [[Ht E]|[Ht (v & Hh & E)]]; [by left|].
    right. left. split; [done|]. by exists p, v.
  - destruct (decide (type e = GetAiType t)) as [Ht|Ht].
    + right. right. split_and!; [done..|].
      rewrite (Get_same_tag _ index out σ vs e Hv He Ht). by rewrite Hd.
    + left. split; [done|]. by eapply Get_other_tag.
Qed.


(** X6. On a store whose key pointer is null or a live array, a slot
    below the property count whose tag is none of the six kinds makes
    the destructor stop in [transform]'s [assert(false)]: the value
    array is not released. *)
Theorem dtor_asserts_on_unmapped_tag σ vs i e :
  mKeys (this σ) ≠ Dangling →
  mValues (this σ) = Array vs → i < mNumProperties (this σ) →
  vs !! i = Some e → value_kind (type e) = false →
  aiMetadata_dtor σ = AssertFail.
Proof.
  intros Hkeys Hv Hi He Hbad. unfold aiMetadata_dtor.
  rewrite (bind_Ok _ _ σ σ σ) by done.
  destruct (dtor_keys_step σ) as [[Hd _]|(σ1 & E1 & _ & _ & Hv1 & Hn1 & _)]; [done|].
  rewrite (bind_Ok _ _ σ tt σ1 E1).
  rewrite (bind_Ok _ _ σ1 σ1 σ1) by done.
  rewrite Hv1, Hv, Hn1. cbn [non_null].
  apply bind_AssertFail.
  eapply (dtor_loop_AssertFail _ 0 _ vs i e); [congruence | lia | done | done].
Qed.

(** X7. The destructor releases none of the objects the entries point
    to: whenever it returns, the objects allocated by [Set] are all
    still there, unchanged; what it did release is the two arrays (no
    elements are accessible through either pointer any more). *)
Theorem dtor_releases_no_object σ :
  aiMetadata_dtor σ = AssertFail ∨ aiMetadata_dtor σ = Undefined
  ∨ ∃ σ', aiMetadata_dtor σ = Ok (tt, σ')
      ∧ heap σ' = heap σ
      ∧ contents (mKeys (this σ')) = None
      ∧ contents (mValues (this σ')) = None
      ∧ mNumProperties (this σ') = mNumProperties (this σ).
Proof.
  unfold aiMetadata_dtor.
  rewrite (bind_Ok _ _ σ σ σ) by done.
  destruct (dtor_keys_step σ) as [[_ E]|(σ1 & E1 & _ & Hk1 & Hv1 & Hn1 & Hh1)].
  { right. left. by apply bind_Undefined. }
  rewrite (bind_Ok _ _ σ tt σ1 E1).
  rewrite (bind_Ok _ _ σ1 σ1 σ1) by done.
  destruct (mValues (this σ1)) as [|vs|] eqn:Hvs; cbn [non_null].
  - right. right. exists σ1. split_and!; try done. by rewrite Hvs.
  - destruct (for_each_index (mNumProperties (this σ1)) 0
                (λ i, e ← read_mValues i; transform_entry e operator_delete_fn) σ1)
      as [[[] σ2]| |] eqn:El.
    + rewrite (bind_Ok _ _ σ1 tt σ2 El).
      apply dtor_loop_Ok_inv in El. destruct El as [Ht2 Hh2].
      right. right. exists (after_delete_mValues σ2). split_and!.
      * eapply delete_mValues_Array. by rewrite Ht2.
      * cbn. congruence.
      * cbn. by rewrite Ht2.
      * done.
      * cbn. by rewrite Ht2.
    + left. by apply bind_AssertFail.
    + right. left. by apply bind_Undefined.
  - destruct (for_each_index (mNumProperties (this σ1)) 0
                (λ i, e ← read_mValues i; transform_entry e operator_delete_fn) σ1)
      as [[[] σ2]| |] eqn:El.
    + rewrite (bind_Ok _ _ σ1 tt σ2 El).
      apply dtor_loop_Ok_inv in El. destruct El as [Ht2 Hh2].
      right. left. apply delete_mValues_Dangling. by rewrite Ht2.
    + left. by apply bind_AssertFail.
    + right. left. by apply bind_Undefined.
Qed.

(** X8. Insert and look up by key: after [Set(index, key, v)], a keyed
    [Get] with an [aiString] that compares equal to the key now stored
    at [index] returns true with [v], provided no key at a smaller index
    compares equal to it. *)
Theorem Set_then_Get_key t index key (v out : cval t) σ ks vs kk k_old :
  mKeys (this σ) = Array ks → mValues (this σ) = Array vs →
  index < mNumProperties (this σ) →
  mNumProperties (this σ) ≤ length ks → index < length vs →
  ks !! index = Some k_old →
  aiString_eq (aiString_assign k_old key) kk = true →
  (∀ j k', j < index → ks !! j = Some k' → aiString_eq k' kk = false) →
  ∃ σ', Set_ t index key v σ = Ok (tt, σ')
        ∧ Get_key t kk out σ' = Ok ((true, v), σ').
Proof.
  intros Hk Hv Hn Hlk Hiv Hold Heq Hno.
  exists (after_Set t index key v ks vs σ).
  split; [apply Set_Ok; (done || lia)|].
  unfold Get_key. erewrite bind_Ok by done.
  erewrite (Get_key_from_first_match t _ 0 index kk out _
              (alter (λ k, aiString_assign k key) index ks)
              (aiString_assign k_old key)).
  - by apply Get_after_Set_same.
  - done.
  - cbn. rewrite length_alter. lia.
  - cbn. lia.
  - rewrite list_lookup_alter_eq. by rewrite Hold.
  - done.
  - intros j k' Hj. rewrite list_lookup_alter_ne by lia. apply Hno. lia.
Qed.

(** X9. Two [Set]s at different indices do not interfere: afterwards
    [Get] returns the first value at the first index and the second
    value at the second. *)
Theorem Set_two_slots t1 t2 i j k1 k2 (v1 : cval t1) (v2 : cval t2) σ ks vs :
  mKeys (this σ) = Array ks → mValues (this σ) = Array vs →
  i < mNumProperties (this σ) → j < mNumProperties (this σ) →
  mNumProperties (this σ) ≤ length ks → mNumProperties (this σ) ≤ length vs →
  i ≠ j →
  ∃ σ1 σ2, Set_ t1 i k1 v1 σ = Ok (tt, σ1) ∧ Set_ t2 j k2 v2 σ1 = Ok (tt, σ2)
    ∧ (∀ out, Get t1 i out σ2 = Ok ((true, v1), σ2))
    ∧ (∀ out, Get t2 j out σ2 = Ok ((true, v2), σ2)).
Proof.
  intros Hk Hv Hi Hj Hlk Hlv Hne.
  set (σ1 := after_Set t1 i k1 v1 ks vs σ).
  set (ks1 := alter (λ k, aiString_assign k k1) i ks).
  set (vs1 := <[i := mk_entry (GetAiType t1) (Some (fresh (dom (heap σ))))]> vs).
  assert (length vs1 = length vs) as Hlv1 by apply length_insert.
  exists σ1, (after_Set t2 j k2 v2 ks1 vs1 σ1).
  split_and!.
  - apply Set_Ok; (done || lia).
  - apply Set_Ok; [reflexivity | reflexivity | done | | ].
    + unfold ks1. rewrite length_alter. lia.
    + lia.
  - intros out. apply Get_after_Set_other; [done | | reflexivity].
    apply Get_after_Set_same. lia.
  - intros out. apply Get_after_Set_same. lia.
Qed.

(** X10. On a store that satisfies the invariant and has every slot
    set (no null pointer), the keyed [Get] instantiated at one of the
    six overload types always returns, for every key, and leaves the
    state as it was. *)
Theorem Get_key_returns_on_populated_store t key (out : cval t) σ vs :
  exact_match t = true →
  store_ok σ → mValues (this σ) = Array vs →
  Forall (λ e, data e ≠ None) vs →
  ∃ r, Get_key t key out σ = Ok (r, σ).
Proof.
  intros Hex (ks & vs' & Hk & Hv & Hlk & Hlv & Hok & Hnd) Hv' Hset.
  assert (vs' = vs) as -> by congruence.
  unfold Get_key. rewrite (bind_Ok _ _ σ σ σ) by done.
  eapply Get_key_from_total; [done | done | lia | done | lia | done | done].
Qed.

(** X11. [Set] cannot override an earlier duplicate: when a key at a
    smaller index already compares equal to the looked-up key, the keyed
    [Get] after the [Set] still returns what the indexed [Get] at that
    earlier slot returned before it. *)
Theorem Set_is_shadowed_by_earlier_key
    t index key (v : cval t) σ ks vs kk m k t' (out : cval t') r :
  mKeys (this σ) = Array ks → mValues (this σ) = Array vs →
  index < mNumProperties (this σ) →
  mNumProperties (this σ) ≤ length ks → index < length vs →
  m < index → ks !! m = Some k → aiString_eq k kk = true →
  (∀ j k', j < m → ks !! j = Some k' → aiString_eq k' kk = false) →
  Get t' m out σ = Ok (r, σ) →
  ∃ σ', Set_ t index key v σ = Ok (tt, σ')
        ∧ Get_key t' kk out σ' = Ok (r, σ').
Proof.
  intros Hk Hv Hn Hlk Hiv Hm Hkm Heq Hno HG.
  exists (after_Set t index key v ks vs σ).
  split; [apply Set_Ok; (done || lia)|].
  unfold Get_key. erewrite bind_Ok by done.
  erewrite (Get_key_from_first_match t' _ 0 m kk out _
              (alter (λ k, aiString_assign k key) index ks) k).
  - apply Get_after_Set_other; [lia | done | done].
  - done.
  - cbn. rewrite length_alter. lia.
  - cbn. lia.
  - rewrite list_lookup_alter_ne by lia. done.
  - done.
  - intros j k' Hj. rewrite list_lookup_alter_ne by lia. apply Hno. lia.
Qed.


End Metadata.

Arguments mk_aiMetadata {aiString} _ _ _.
Arguments mk_state {aiString} _ _ _.
Arguments this {aiString} _.
Arguments heap {aiString} _.
Arguments log {aiString} _.
Arguments mNumProperties {aiString} _.
Arguments mKeys {aiString} _.
Arguments mValues {aiString} _.

(** ** Runs on concrete stores

    [aiString] is instantiated by plain strings: [operator==] compares
    them and assignment from a [std::string] takes its characters. *)
Module Runs.

Definition str_assign (_ : string) (s : std_string) : string := s.

Definition key (s : string) : string := s.

(** A store pre-sized to one slot that has not been set yet. *)
Definition presized : state string :=
  mk_state (mk_aiMetadata 1 (Array [key ""]) (Array [mk_entry AI_BOOL NULL])) ∅ [].

(** One slot holding the [int] 7 at address 1. *)
Definition one_int : state string :=
  mk_state (mk_aiMetadata 1 (Array [key "n"]) (Array [mk_entry AI_INT (Some 1%positive)]))
    {[ 1%positive := O_int string 7%Z ]} [].

(** The store of the key-lookup example: keys a, b, a with an [int], a
    [float] and a [bool]. *)
Definition aba : state string :=
  mk_state
    (mk_aiMetadata 3 (Array [key "a"; key "b"; key "a"])
       (Array [mk_entry AI_INT (Some 1%positive);
              mk_entry AI_FLOAT (Some 2%positive);
              mk_entry AI_BOOL (Some 3%positive)]))
    (<[1%positive := O_int string 1%Z]>
       (<[2%positive := O_float string 1073741824%Z]>
          (<[3%positive := O_bool string true]> ∅)))
    [].

(** A pre-sized slot whose tag is none of the six kinds. *)
Definition unmapped : state string :=
  mk_state (mk_aiMetadata 1 (Array [key ""]) (Array [mk_entry FORCE_32BIT NULL])) ∅ [].

End Runs.

(** *** Worked runs *)

(** Keyed lookup with a duplicate key: the first "a" (index 0, an [int])
    decides both when the types agree and when they do not; the [bool]
    under the second "a" is never reached. *)
Example Get_key_aba_int :
  Get_key string String.eqb T_int (Runs.key "a") 0%Z Runs.aba
  = Ok ((true, 1%Z), Runs.aba).
Proof. vm_compute. reflexivity. Qed.

Example Get_key_aba_bool :
  Get_key string String.eqb T_bool (Runs.key "a") false Runs.aba
  = Ok ((false, false), Runs.aba)
  ∧ Get string T_bool 2 false Runs.aba = Ok ((true, true), Runs.aba).
Proof. split; vm_compute; reflexivity. Qed.

Example Get_key_aba_absent :
  Get_key string String.eqb T_int (Runs.key "c") 5%Z Runs.aba
  = Ok ((false, 5%Z), Runs.aba).
Proof. vm_compute. reflexivity. Qed.

(** Dispatching [operator delete] on a live [int] leaves it allocated,
    whereas one application of the callable to the re-typed pointer
    would have released it. *)
Example transform_versus_one_call :
  (∃ σ', transform string AI_INT (Some 1%positive) (operator_delete_fn string) Runs.one_int
         = Ok (tt, σ')
         ∧ heap σ' !! 1%positive = Some (O_int string 7%Z))
  ∧ (∃ σ', call string (operator_delete_fn string) (static_cast T_int (Some 1%positive))
             Runs.one_int = Ok (tt, σ')
           ∧ heap σ' !! 1%positive = None).
Proof. split; eexists; split; vm_compute; reflexivity. Qed.

(** On the default-constructed store every index is out of range:
    [Set] stops in its assertion, [Get] dereferences the null array. *)
Example out_of_range_on_empty_store :
  let σ := mk_state (mk_aiMetadata (aiString := string) 0 Null_array Null_array) ∅ [] in
  Set_ string Runs.str_assign T_int 0 (Runs.key "k") 1%Z σ = AssertFail
  ∧ Get string T_int 0 0%Z σ = Undefined.
Proof. split; vm_compute; reflexivity. Qed.

(** With spare capacity behind the property count the unchecked [Get]
    simply returns what lies there, while [Set] still stops. *)
Example Get_beyond_count_reads_silently :
  let σ := mk_state
             (mk_aiMetadata 1 (Array [Runs.key "n"; Runs.key "spare"])
                (Array [mk_entry AI_INT (Some 1%positive);
                       mk_entry AI_INT (Some 2%positive)]))
             (<[1%positive := O_int string 7%Z]>
                (<[2%positive := O_int string 9%Z]> ∅)) [] in
  Get string T_int 1 0%Z σ = Ok ((true, 9%Z), σ)
  ∧ Set_ string Runs.str_assign T_int 1 (Runs.key "k") 1%Z σ = AssertFail.
Proof. split; vm_compute; reflexivity. Qed.

(** Running the destructor a second time releases the key array again
    through the dangling pointer. *)
Example dtor_twice_is_undefined :
  ∃ σ', aiMetadata_dtor string Runs.one_int = Ok (tt, σ')
        ∧ aiMetadata_dtor string σ' = Undefined.
Proof. eexists. split; vm_compute; reflexivity. Qed.

(** *** Instances of the conditional theorems *)

Lemma Get_type_mismatch_witness :
  Get string T_float 0 5%Z Runs.one_int = Ok ((false, 5%Z), Runs.one_int).
Proof.
  apply (Get_type_mismatch string T_int T_float 0 5%Z Runs.one_int
           [mk_entry AI_INT (Some 1%positive)] (mk_entry AI_INT (Some 1%positive)));
    [reflexivity | reflexivity | reflexivity
    | right; split_and!; [reflexivity | reflexivity | discriminate]].
Defined.

Lemma Set_then_Get_roundtrip_witness :
  ∃ σ', Set_ string Runs.str_assign T_float 0 (Runs.key "f") 1073741824%Z Runs.presized
        = Ok (tt, σ')
        ∧ Get string T_float 0 0%Z σ' = Ok ((true, 1073741824%Z), σ').
Proof.
  apply (Set_then_Get_roundtrip string Runs.str_assign T_float 0 (Runs.key "f")
           1073741824%Z 0%Z Runs.presized [Runs.key ""] [mk_entry AI_BOOL NULL]);
    [reflexivity | reflexivity | cbn; lia | cbn; lia | cbn; lia].
Defined.

Lemma Get_key_first_match_witness :
  Get_key string String.eqb T_int (Runs.key "a") 0%Z Runs.aba
  = Get string T_int 0 0%Z Runs.aba.
Proof.
  refine (proj1 (Get_key_first_match string String.eqb T_int (Runs.key "a") 0%Z
                   Runs.aba _) 0 (Runs.key "a") _ _ _ _).
  - cbn. lia.
  - cbn. lia.
  - reflexivity.
  - reflexivity.
  - intros j k' Hj. lia.
Defined.


(** *** Where the code departs from the stated contract *)


(** C6 (what the code does). Destroying a store whose only slot holds
    a live [int]: the destructor releases the key array, enters
    [transform] once for the slot with [operator delete], releases the
    value array and returns; the [int] is still allocated, handed to no
    destructor and no deallocation function, not even once. *)
Lemma dtor_leaves_entry_allocated :
  ∃ σ', aiMetadata_dtor string Runs.one_int = Ok (tt, σ')
    ∧ ¬ entries_destroyed_once string Runs.one_int σ'
    ∧ heap σ' !! 1%positive = Some (O_int string 7%Z)
    ∧ times_deleted 1%positive (log σ') = 0
    ∧ log σ' = [EvDeleteArray Keys_array;
                EvTransform AI_INT (Some 1%positive) "operator delete";
                EvDeleteArray Values_array]
    ∧ mKeys (this σ') = Dangling ∧ mValues (this σ') = Dangling.
Proof.
  eexists. split_and!.
  - vm_compute. reflexivity.
  - intros H.
    destruct (H [mk_entry AI_INT (Some 1%positive)] 0
                (mk_entry AI_INT (Some 1%positive)) 1%positive
                eq_refl eq_refl eq_refl) as [Hgone _].
    vm_compute in Hgone. discriminate Hgone.
  - vm_compute. reflexivity.
  - vm_compute. reflexivity.
  - vm_compute. reflexivity.
  - reflexivity.
  - reflexivity.
Qed.


(** *** Instances of the further properties *)

Lemma aba_store_ok : store_ok string Runs.aba.
Proof.
  exists [Runs.key "a"; Runs.key "b"; Runs.key "a"],
         [mk_entry AI_INT (Some 1%positive);
          mk_entry AI_FLOAT (Some 2%positive);
          mk_entry AI_BOOL (Some 3%positive)].
  split_and!; [reflexivity | reflexivity | reflexivity | reflexivity | | ].
  - repeat constructor; intros p [= <-]; eexists; split_and!; reflexivity.
  - apply (bool_decide_unpack (NoDup [1%positive; 2%positive; 3%positive])).
    vm_compute. exact I.
Defined.

Lemma Set_keeps_other_slots_witness :
  ∃ σ', Set_ string Runs.str_assign T_bool 1 (Runs.key "c") true Runs.aba = Ok (tt, σ')
        ∧ Get string T_int 0 0%Z σ' = Ok ((true, 1%Z), σ').
Proof.
  apply (Set_keeps_other_slots string Runs.str_assign T_bool 1 (Runs.key "c") true
           Runs.aba [Runs.key "a"; Runs.key "b"; Runs.key "a"]
           [mk_entry AI_INT (Some 1%positive);
            mk_entry AI_FLOAT (Some 2%positive);
            mk_entry AI_BOOL (Some 3%positive)] T_int 0 0%Z (true, 1%Z));
    [reflexivity | reflexivity | cbn; lia | cbn; lia | cbn; lia | lia
    | vm_compute; reflexivity].
Defined.

Lemma Set_allocates_one_object_witness :
  ∃ σ' p, Set_ string Runs.str_assign T_int 0 (Runs.key "n") 8%Z Runs.one_int = Ok (tt, σ')
    ∧ heap Runs.one_int !! p = None
    ∧ heap σ' = <[p := O_int string 8%Z]> (heap Runs.one_int)
    ∧ heap Runs.one_int ⊆ heap σ'
    ∧ size (heap σ') = S (size (heap Runs.one_int))
    ∧ mNumProperties (this σ') = mNumProperties (this Runs.one_int).
Proof.
  apply (Set_allocates_one_object string Runs.str_assign T_int 0 (Runs.key "n") 8%Z
           Runs.one_int [Runs.key "n"] [mk_entry AI_INT (Some 1%positive)]);
    [reflexivity | reflexivity | cbn; lia | cbn; lia | cbn; lia].
Defined.

Lemma Set_preserves_store_ok_witness :
  store_ok string
    (after_Set string Runs.str_assign T_bool 1 (Runs.key "c") true
       [Runs.key "a"; Runs.key "b"; Runs.key "a"]
       [mk_entry AI_INT (Some 1%positive);
        mk_entry AI_FLOAT (Some 2%positive);
        mk_entry AI_BOOL (Some 3%positive)] Runs.aba).
Proof.
  apply (Set_preserves_store_ok string Runs.str_assign T_bool 1 (Runs.key "c") true
           Runs.aba _ eq_refl aba_store_ok).
  - cbn. lia.
  - vm_compute. reflexivity.
Defined.

Lemma Get_safe_on_store_ok_witness :
  ∃ vs e, mValues (this Runs.aba) = Array vs ∧ vs !! 1 = Some e
    ∧ ((type e ≠ GetAiType T_int
        ∧ Get string T_int 1 0%Z Runs.aba = Ok ((false, 0%Z), Runs.aba))
       ∨ (type e = GetAiType T_int
          ∧ ∃ p v, data e = Some p ∧ heap Runs.aba !! p = Some (box string T_int v)
                   ∧ Get string T_int 1 0%Z Runs.aba = Ok ((true, v), Runs.aba))
       ∨ (type e = GetAiType T_int ∧ data e = NULL
          ∧ Get string T_int 1 0%Z Runs.aba = Undefined)).
Proof.
  apply (Get_safe_on_store_ok string T_int 1 0%Z Runs.aba eq_refl aba_store_ok).
  cbn. lia.
Defined.

Lemma dtor_asserts_on_unmapped_tag_witness :
  aiMetadata_dtor string Runs.unmapped = AssertFail.
Proof.
  apply (dtor_asserts_on_unmapped_tag string Runs.unmapped
           [mk_entry FORCE_32BIT NULL] 0 (mk_entry FORCE_32BIT NULL));
    [discriminate | reflexivity | cbn; lia | reflexivity | reflexivity].
Defined.

Lemma Set_then_Get_key_witness :
  ∃ σ', Set_ string Runs.str_assign T_bool 1 (Runs.key "c") true Runs.aba = Ok (tt, σ')
        ∧ Get_key string String.eqb T_bool (Runs.key "c") false σ' = Ok ((true, true), σ').
Proof.
  apply (Set_then_Get_key string String.eqb Runs.str_assign T_bool 1 (Runs.key "c")
           true false Runs.aba [Runs.key "a"; Runs.key "b"; Runs.key "a"]
           [mk_entry AI_INT (Some 1%positive);
            mk_entry AI_FLOAT (Some 2%positive);
            mk_entry AI_BOOL (Some 3%positive)] (Runs.key "c") (Runs.key "b"));
    [reflexivity | reflexivity | cbn; lia | cbn; lia | cbn; lia
    | reflexivity | reflexivity | ].
  intros j k' Hj Hk. assert (j = 0) as -> by lia.
  injection Hk as <-. reflexivity.
Defined.

Lemma Set_two_slots_witness :
  ∃ σ1 σ2,
    Set_ string Runs.str_assign T_int 0 (Runs.key "x") 4%Z Runs.aba = Ok (tt, σ1)
    ∧ Set_ string Runs.str_assign T_bool 2 (Runs.key "y") false σ1 = Ok (tt, σ2)
    ∧ (∀ out, Get string T_int 0 out σ2 = Ok ((true, 4%Z), σ2))
    ∧ (∀ out, Get string T_bool 2 out σ2 = Ok ((true, false), σ2)).
Proof.
  apply (Set_two_slots string Runs.str_assign T_int T_bool 0 2 (Runs.key "x")
           (Runs.key "y") 4%Z false Runs.aba
           [Runs.key "a"; Runs.key "b"; Runs.key "a"]
           [mk_entry AI_INT (Some 1%positive);
            mk_entry AI_FLOAT (Some 2%positive);
            mk_entry AI_BOOL (Some 3%positive)]);
    [reflexivity | reflexivity | cbn; lia | cbn; lia | cbn; lia | cbn; lia | lia].
Defined.

Lemma Get_key_returns_on_populated_store_witness :
  ∃ r, Get_key string String.eqb T_float (Runs.key "b") 0%Z Runs.aba = Ok (r, Runs.aba).
Proof.
  apply (Get_key_returns_on_populated_store string String.eqb T_float (Runs.key "b")
           0%Z Runs.aba
           [mk_entry AI_INT (Some 1%positive);
            mk_entry AI_FLOAT (Some 2%positive);
            mk_entry AI_BOOL (Some 3%positive)] eq_refl aba_store_ok);
    [reflexivity | repeat constructor; discriminate].
Defined.

Lemma Set_is_shadowed_by_earlier_key_witness :
  ∃ σ', Set_ string Runs.str_assign T_bool 2 (Runs.key "a") false Runs.aba = Ok (tt, σ')
        ∧ Get_key string String.eqb T_int (Runs.key "a") 0%Z σ' = Ok ((true, 1%Z), σ').
Proof.
  apply (Set_is_shadowed_by_earlier_key string String.eqb Runs.str_assign T_bool 2
           (Runs.key "a") false Runs.aba [Runs.key "a"; Runs.key "b"; Runs.key "a"]
           [mk_entry AI_INT (Some 1%positive);
            mk_entry AI_FLOAT (Some 2%positive);
            mk_entry AI_BOOL (Some 3%positive)]
           (Runs.key "a") 0 (Runs.key "a") T_int 0%Z (true, 1%Z));
    [reflexivity | reflexivity | cbn; lia | cbn; lia | cbn; lia | lia
    | reflexivity | reflexivity | intros j k' Hj; lia | vm_compute; reflexivity].
Defined.

